(** * PredictedProcess: a cancellable, memoized child-process runner

    Shallow embedding of [src/PredictedProcess.ts].

    The class is asynchronous JavaScript.  Its objects live in a heap and are
    shared by reference: the promise stored in [_memoizedResult] is the same
    object for a process and for every copy made by [memoize], and the
    handlers registered on a child process or on an [AbortSignal] are
    closures over [this] and over the [resolve]/[reject] pair of one promise.
    The embedding keeps that sharing: units, promises, child processes and
    signals are tables indexed by reference, and a closure is the pair of
    references it captured.

    Every piece of code that JavaScript runs without interruption is one
    function on the state: the part of [run] before its [await], the part
    after it, each event handler, [cleanup], [memoize].  Scheduling (which
    handler or continuation runs next) is left to the trace of actions. *)

From Stdlib Require Import ZArith DecimalString DecimalPos DecimalZ.
From stdpp Require Import base list strings.

(** ** Heap objects *)

(** References are indices into the tables of the state. *)
Abbreviation uref := nat (only parsing).   (* a PredictedProcess object *)
Abbreviation pref := nat (only parsing).   (* a Promise<void> *)
Abbreviation href := nat (only parsing).   (* a ChildProcess *)
Abbreviation sref := nat (only parsing).   (* an AbortSignal *)

(** [class PredictedProcess]: the two readonly constructor fields and the two
    private nullable fields. *)
Record PredictedProcess := mkPredictedProcess {
  id : Z;
  command : string;
  _childProcess : option href;
  _memoizedResult : option pref;
}.

(** A [Promise<void>]; a rejection carries the message of its [Error]. *)
Inductive promise :=
| Pending
| Resolved
| Rejected (message : string).

(** What the three handlers created in one call of the executor capture:
    [this] and the [resolve]/[reject] functions of the promise being built. *)
Record closure := mkClosure {
  this_of : uref;
  promise_of : pref;
}.

(** Listeners of a child process, by event name. *)
Inductive listener :=
| OnError (k : closure)    (* .on('error', handleError) *)
| OnClose (k : closure).   (* .on('close', (code) => ...) *)

(** A [ChildProcess] as far as the class touches it: the command it was
    spawned with, its listeners in registration order, and how often [kill]
    was called on it. *)
Record ChildProcess := mkChildProcess {
  spawnargs : string;
  listeners : list listener;
  kills : nat;
}.

(** An [AbortSignal]: the [aborted] flag and the 'abort' listeners. *)
Record AbortSignal := mkAbortSignal {
  aborted : bool;
  abort_listeners : list closure;
}.

(** One invocation of the async function [run], seen from its caller. *)
Inductive invocation :=
| Threw (message : string)                                (* line 38 *)
| Awaiting (this : uref) (p : pref) (signal : option sref) (* suspended at line 43 *)
| Returned (p : pref).                                    (* line 76 *)

Record state := mkState {
  units : list PredictedProcess;
  promises : list promise;
  procs : list ChildProcess;      (* every child ever spawned, in spawn order *)
  signals : list AbortSignal;
  calls : list invocation;
  cleanups : nat;                 (* number of calls of [cleanup] so far *)
}.

Definition init : state := mkState [] [] [] [] [] 0.

(** ** Field updates *)

Definition set_units (f : list PredictedProcess → list PredictedProcess) (σ : state) : state :=
  mkState (f (units σ)) (promises σ) (procs σ) (signals σ) (calls σ) (cleanups σ).
Definition set_promises (f : list promise → list promise) (σ : state) : state :=
  mkState (units σ) (f (promises σ)) (procs σ) (signals σ) (calls σ) (cleanups σ).
Definition set_procs (f : list ChildProcess → list ChildProcess) (σ : state) : state :=
  mkState (units σ) (promises σ) (f (procs σ)) (signals σ) (calls σ) (cleanups σ).
Definition set_signals (f : list AbortSignal → list AbortSignal) (σ : state) : state :=
  mkState (units σ) (promises σ) (procs σ) (f (signals σ)) (calls σ) (cleanups σ).
Definition set_calls (f : list invocation → list invocation) (σ : state) : state :=
  mkState (units σ) (promises σ) (procs σ) (signals σ) (f (calls σ)) (cleanups σ).
Definition count_cleanup (σ : state) : state :=
  mkState (units σ) (promises σ) (procs σ) (signals σ) (calls σ) (S (cleanups σ)).

(** [this._childProcess = h] and [this._memoizedResult = r]. *)
Definition with_childProcess (h : option href) (u : PredictedProcess) : PredictedProcess :=
  mkPredictedProcess (id u) (command u) h (_memoizedResult u).
Definition with_memoizedResult (r : option pref) (u : PredictedProcess) : PredictedProcess :=
  mkPredictedProcess (id u) (command u) (_childProcess u) r.
Definition assign_childProcess (this : uref) (h : option href) : state → state :=
  set_units (alter (with_childProcess h) this).
Definition assign_memoizedResult (this : uref) (r : option pref) : state → state :=
  set_units (alter (with_memoizedResult r) this).

(** Reading the two fields; a reference to no object reads as [null]. *)
Definition childProcess_of (σ : state) (this : uref) : option href :=
  u ← units σ !! this; _childProcess u.
Definition memoizedResult_of (σ : state) (this : uref) : option pref :=
  u ← units σ !! this; _memoizedResult u.

(** ** Promises *)

(** [resolve()] and [reject(error)] settle a pending promise and do nothing
    to a settled one. *)
Definition settle (v : promise) (old : promise) : promise :=
  match old with
  | Pending => v
  | _ => old
  end.
Definition resolve (p : pref) : state → state := set_promises (alter (settle Resolved) p).
Definition reject (p : pref) (message : string) : state → state :=
  set_promises (alter (settle (Rejected message)) p).

(** ** The class *)

(** [new PredictedProcess(id, command)] *)
Definition construct (i : Z) (cmd : string) (σ : state) : state :=
  set_units (λ us, us ++ [mkPredictedProcess i cmd None None]) σ.

(** [removeAllListeners()] followed by [kill()] on one child. *)
Definition release (c : ChildProcess) : ChildProcess :=
  mkChildProcess (spawnargs c) [] (S (kills c)).

(** [cleanup()], lines 79-84 *)
Definition cleanup (this : uref) (σ : state) : state :=
  let σ := count_cleanup σ in
  match childProcess_of σ this with
  | Some h => set_procs (alter release h) σ
  | None => σ
  end.

(** [handleError], lines 53-57 *)
Definition handleError (k : closure) (message : string) (σ : state) : state :=
  let σ := cleanup (this_of k) σ in
  let σ := assign_memoizedResult (this_of k) None σ in
  reject (promise_of k) message σ.

(** The template literal of line 67: an exit code prints in decimal, and
    [null] (a child ended by a signal) prints as [null]. *)
Definition code_text (code : option Z) : string :=
  match code with
  | Some c => NilZero.string_of_int (Z.to_int c)
  | None => "null"
  end.

(** The 'close' listener, lines 61-69 *)
Definition handleClose (k : closure) (code : option Z) (σ : state) : state :=
  let σ := cleanup (this_of k) σ in
  match code with
  | Some 0%Z => resolve (promise_of k) σ
  | _ => handleError k ("Process exited with code " +:+ code_text code) σ
  end.

(** The 'abort' listener, lines 71-73 *)
Definition handleAbort (k : closure) (σ : state) : state :=
  handleError k "AbortSignal triggered" σ.

(** [signal?.aborted]: an omitted signal, like one not yet fired, reads as
    falsy. *)
Definition signal_aborted (σ : state) (signal : option sref) : bool :=
  match signal with
  | Some s => match signals σ !! s with Some sg => aborted sg | None => false end
  | None => false
  end.

(** [signal?.addEventListener('abort', ...)] *)
Definition with_listener (k : closure) (sg : AbortSignal) : AbortSignal :=
  mkAbortSignal (aborted sg) (abort_listeners sg ++ [k]).
Definition addEventListener (signal : option sref) (k : closure) (σ : state) : state :=
  match signal with
  | Some s => set_signals (alter (with_listener k) s) σ
  | None => σ
  end.

(** Lines 50-75: the [new Promise] with its executor, and the assignment of
    the promise to [this._memoizedResult].  Returns the new promise. *)
Definition spawn_promise (this : uref) (signal : option sref) (σ : state) : pref * state :=
  let p := length (promises σ) in
  let h := length (procs σ) in
  let k := mkClosure this p in
  let cmd := default "" (command <$> units σ !! this) in
  let σ := set_promises (λ ps, ps ++ [Pending]) σ in
  let σ := set_procs (λ cs, cs ++ [mkChildProcess cmd [OnError k; OnClose k] 0]) σ in
  let σ := assign_childProcess this (Some h) σ in
  let σ := addEventListener signal k σ in
  let σ := assign_memoizedResult this (Some p) σ in
  (p, σ).

(** Lines 49-76: what [run] does once it is past the [await]. *)
Definition run_tail (this : uref) (signal : option sref) (σ : state) : pref * state :=
  match memoizedResult_of σ this with
  | Some p => (p, σ)
  | None => spawn_promise this signal σ
  end.

(** [run(signal)] up to its first suspension, lines 36-43 (and, when there
    is nothing to await, to its end).  The new entry of [calls] is the
    caller's view of the invocation. *)
Definition run (this : uref) (signal : option sref) (σ : state) : state :=
  if signal_aborted σ signal then
    set_calls (λ cs, cs ++ [Threw "Signal already aborted"]) σ
  else
    match memoizedResult_of σ this with
    | Some p => set_calls (λ cs, cs ++ [Awaiting this p signal]) σ
    | None =>
        let '(p, σ) := run_tail this signal σ in
        set_calls (λ cs, cs ++ [Returned p]) σ
    end.

(** Lines 42-47 after the awaited promise has settled: the [catch] clears
    the field when the promise was rejected. *)
Definition after_await (this : uref) (awaited : promise) (σ : state) : state :=
  match awaited with
  | Rejected _ => assign_memoizedResult this None σ
  | _ => σ
  end.

(** The continuation of invocation [c], lines 43-76.  It can run only once
    the awaited promise has settled.  JavaScript runs it as a microtask,
    after the code that settled the promise and whatever that code's caller
    does in the same turn; a trace may place [Resume] at any later point. *)
Definition resume (c : nat) (σ : state) : state :=
  match calls σ !! c with
  | Some (Awaiting this p signal) =>
      match promises σ !! p with
      | Some Pending | None => σ
      | Some awaited =>
          let σ := after_await this awaited σ in
          let '(q, σ) := run_tail this signal σ in
          set_calls (<[c := Returned q]>) σ
      end
  | _ => σ
  end.

(** [memoize()], lines 114-118 *)
Definition memoize (this : uref) (σ : state) : state :=
  match units σ !! this with
  | Some u =>
      set_units (λ us, us ++ [mkPredictedProcess (id u) (command u) None (_memoizedResult u)]) σ
  | None => σ
  end.

(** ** The platform: events and cancellation *)

(** What a child process can emit to the listeners of the class. *)
Inductive event :=
| EvError (message : string)    (* 'error', with the message of its Error *)
| EvClose (code : option Z).    (* 'close', with the exit code or null *)

Definition invoke (ev : event) (l : listener) (σ : state) : state :=
  match ev, l with
  | EvError m, OnError k => handleError k m σ
  | EvClose c, OnClose k => handleClose k c σ
  | _, _ => σ
  end.

(** [EventEmitter.emit]: the listeners registered when the event is emitted
    are called in registration order (the emitter iterates over a copy, so a
    listener removed by an earlier one is still called for this event).  An
    event nobody listens to changes nothing in the class. *)
Definition emit (h : href) (ev : event) (σ : state) : state :=
  match procs σ !! h with
  | Some c => fold_left (λ σ l, invoke ev l σ) (listeners c) σ
  | None => σ
  end.

(** [new AbortController().signal] *)
Definition new_signal (σ : state) : state :=
  set_signals (λ ss, ss ++ [mkAbortSignal false []]) σ.

Definition fire (sg : AbortSignal) : AbortSignal :=
  mkAbortSignal true (abort_listeners sg).

(** [AbortController.abort()]: a signal fires once; it sets [aborted] and
    then calls its 'abort' listeners in registration order. *)
Definition abort (s : sref) (σ : state) : state :=
  match signals σ !! s with
  | Some sg =>
      if aborted sg then σ
      else
        let σ := set_signals (alter fire s) σ in
        fold_left (λ σ k, handleAbort k σ) (abort_listeners sg) σ
  | None => σ
  end.

(** ** Traces *)

(** Everything that can happen to a state: the calls a client can make and
    the notifications the platform can deliver. *)
Inductive action :=
| Construct (i : Z) (cmd : string)
| NewSignal
| Run (this : uref) (signal : option sref)
| Resume (c : nat)
| Emit (h : href) (ev : event)
| Abort (s : sref)
| Memoize (this : uref).

Definition step (σ : state) (a : action) : state :=
  match a with
  | Construct i cmd => construct i cmd σ
  | NewSignal => new_signal σ
  | Run this signal => run this signal σ
  | Resume c => resume c σ
  | Emit h ev => emit h ev σ
  | Abort s => abort s σ
  | Memoize this => memoize this σ
  end.

Definition exec (tr : list action) (σ : state) : state := fold_left step tr σ.

(** What the caller of invocation [c] observes on the promise [run] gave
    it: a throw in an async function is a rejection, a suspended invocation
    is still pending, and a returned promise is followed. *)
Definition outcome (σ : state) (c : nat) : option promise :=
  match calls σ !! c with
  | Some (Threw m) => Some (Rejected m)
  | Some (Awaiting _ _ _) => Some Pending
  | Some (Returned p) => promises σ !! p
  | None => None
  end.

(** A notification reaching one closure, whichever listener carried it. *)
Inductive notification :=
| NError (message : string)
| NClose (code : option Z)
| NAbort.

Definition deliver (k : closure) (n : notification) (σ : state) : state :=
  match n with
  | NError m => handleError k m σ
  | NClose c => handleClose k c σ
  | NAbort => handleAbort k σ
  end.

(** The notifications that stand for a failed execution, and the message of
    the rejection each one asks for. *)
Definition is_failure (n : notification) : bool :=
  match n with
  | NClose (Some 0%Z) => false
  | _ => true
  end.

Definition failure_message (n : notification) : string :=
  match n with
  | NError m => m
  | NClose c => "Process exited with code " +:+ code_text c
  | NAbort => "AbortSignal triggered"
  end.

(** The settlement a notification asks for. *)
Definition verdict (n : notification) : promise :=
  if is_failure n then Rejected (failure_message n) else Resolved.

(** ** Sample runs *)

(** A unit whose command has been started under the token of signal 0 and is
    still running: child 0, promise 0, invocation 0. *)
Definition running : state :=
  exec [Construct 1 "sleep 1; exit 0"; NewSignal; Run 0 (Some 0)] init.

(** The same, with a second signal that has already fired. *)
Definition running_fired : state :=
  exec [NewSignal; Abort 1] running.

(** The same as [running], after [memoize] made unit 1 from unit 0. *)
Definition running_copied : state :=
  exec [Memoize 0] running.

(** "exit 0", run under the token of signal 0, has exited with code 0. *)
Definition succeeded : state :=
  exec [Construct 1 "exit 0"; NewSignal; Run 0 (Some 0); Emit 0 (EvClose (Some 0%Z))] init.

(** "exit 1", run under the token of signal 0, has exited with code 1. *)
Definition failed : state :=
  exec [Construct 1 "exit 1"; NewSignal; Run 0 (Some 0); Emit 0 (EvClose (Some 1%Z))] init.


(** A call under signal 1 joins the execution of [running]; signal 1 fires
    while it waits, and then the child exits with code 1. *)
Definition fired_while_waiting : state :=
  exec [NewSignal; Run 0 (Some 1); Abort 1; Emit 0 (EvClose (Some 1%Z))] running.

(** ** Who can settle a promise *)

Definition closure_of (l : listener) : closure :=
  match l with
  | OnError k | OnClose k => k
  end.

(** Every closure held by a listener captured a promise that exists. *)
Definition closures_bounded (σ : state) : Prop :=
  Forall (λ c, Forall (λ l, promise_of (closure_of l) < length (promises σ)) (listeners c))
    (procs σ) ∧
  Forall (λ sg, Forall (λ k, promise_of k < length (promises σ)) (abort_listeners sg))
    (signals σ).

#[global] Instance closures_bounded_dec (σ : state) : Decision (closures_bounded σ).
Proof. unfold closures_bounded. apply _. Defined.



(** * Properties *)

(** ** What each handler touches *)

Section handlers.
Implicit Types (σ : state) (k : closure) (this : uref).

Lemma cleanup_procs this σ :
  procs (cleanup this σ) =
    match childProcess_of σ this with
    | Some h => alter release h (procs σ)
    | None => procs σ
    end.
Proof.
  unfold cleanup. change (childProcess_of (count_cleanup σ) this) with (childProcess_of σ this).
  by destruct (childProcess_of σ this).
Qed.

Lemma cleanup_rest this σ :
  units (cleanup this σ) = units σ ∧ promises (cleanup this σ) = promises σ ∧
  signals (cleanup this σ) = signals σ ∧ calls (cleanup this σ) = calls σ ∧
  cleanups (cleanup this σ) = S (cleanups σ).
Proof.
  unfold cleanup. change (childProcess_of (count_cleanup σ) this) with (childProcess_of σ this).
  by destruct (childProcess_of σ this).
Qed.

Lemma cleanup_childProcess this this' σ :
  childProcess_of (cleanup this σ) this' = childProcess_of σ this'.
Proof. unfold childProcess_of. by rewrite (proj1 (cleanup_rest this σ)). Qed.

Lemma handleError_units k m σ :
  units (handleError k m σ) = alter (with_memoizedResult None) (this_of k) (units σ).
Proof. unfold handleError. cbn. by rewrite (proj1 (cleanup_rest _ σ)). Qed.

Lemma handleError_promises k m σ :
  promises (handleError k m σ) = alter (settle (Rejected m)) (promise_of k) (promises σ).
Proof.
  unfold handleError. cbn. by rewrite (proj1 (proj2 (cleanup_rest _ σ))).
Qed.

Lemma handleError_procs k m σ :
  procs (handleError k m σ) = procs (cleanup (this_of k) σ).
Proof. reflexivity. Qed.

Lemma handleError_rest k m σ :
  signals (handleError k m σ) = signals σ ∧ calls (handleError k m σ) = calls σ ∧
  cleanups (handleError k m σ) = S (cleanups σ).
Proof. unfold handleError. cbn. by destruct (cleanup_rest (this_of k) σ) as (_ & _ & -> & -> & ->). Qed.

(** A failure notification, whichever it is, ends in [handleError]. *)
Lemma deliver_failure k n σ :
  is_failure n = true →
  deliver k n σ =
    handleError k (failure_message n)
      (match n with NClose _ => cleanup (this_of k) σ | _ => σ end).
Proof.
  destruct n as [m|[[| |]|]|]; try done.
Qed.

Lemma deliver_success k σ :
  deliver k (NClose (Some 0%Z)) σ = resolve (promise_of k) (cleanup (this_of k) σ).
Proof. reflexivity. Qed.

Lemma deliver_failure_units k n σ :
  is_failure n = true →
  units (deliver k n σ) = alter (with_memoizedResult None) (this_of k) (units σ).
Proof.
  intros Hn. rewrite deliver_failure, handleError_units by done.
  destruct n; try done. by rewrite (proj1 (cleanup_rest _ σ)).
Qed.

Lemma deliver_failure_promises k n σ :
  is_failure n = true →
  promises (deliver k n σ) =
    alter (settle (Rejected (failure_message n))) (promise_of k) (promises σ).
Proof.
  intros Hn. rewrite deliver_failure, handleError_promises by done.
  destruct n; try done. by rewrite (proj1 (proj2 (cleanup_rest _ σ))).
Qed.

Lemma deliver_signals_calls k n σ :
  signals (deliver k n σ) = signals σ ∧ calls (deliver k n σ) = calls σ.
Proof.
  pose proof (cleanup_rest (this_of k) σ) as (_ & _ & Hs & Hc & _).
  assert (∀ m τ, signals (handleError k m τ) = signals τ ∧
                 calls (handleError k m τ) = calls τ) as He.
  { intros m τ. by destruct (handleError_rest k m τ) as (-> & -> & _). }
  destruct n as [m|code|]; cbn [deliver handleAbort]; [apply He| |apply He].
  unfold handleClose. destruct code as [[| |]|];
    rewrite ?(proj1 (He _ _)), ?(proj2 (He _ _)); by cbn.
Qed.
End handlers.

(** ** From events to handlers *)

(** A child that still has the two listeners of its execution hands every
    event to the closure of that execution. *)
Lemma emit_delivers (σ : state) (h : href) (child : ChildProcess) (k : closure) (ev : event) :
  procs σ !! h = Some child →
  listeners child = [OnError k; OnClose k] →
  emit h ev σ =
    deliver k (match ev with EvError m => NError m | EvClose c => NClose c end) σ.
Proof.
  intros Hc Hl. unfold emit. rewrite Hc, Hl. by destruct ev.
Qed.

(** Once [cleanup] has removed its listeners, the events of a child reach
    nobody. *)
Lemma emit_released (σ : state) (h : href) (child : ChildProcess) (ev : event) :
  procs σ !! h = Some child → listeners child = [] → emit h ev σ = σ.
Proof.
  intros Hc Hl. unfold emit. by rewrite Hc, Hl.
Qed.

(** A signal that fires hands the cancellation to the closure of its
    listener, whether the execution of that closure is still pending or
    not. *)
Lemma abort_delivers (σ : state) (s : sref) (sg : AbortSignal) (k : closure) :
  signals σ !! s = Some sg →
  aborted sg = false →
  abort_listeners sg = [k] →
  abort s σ = deliver k NAbort (set_signals (alter fire s) σ).
Proof.
  intros Hs Ha Hl. unfold abort. by rewrite Hs, Ha, Hl.
Qed.

(** ** A token that has already fired *)

(** C3.  [run] called with a signal that is already aborted throws
    "Signal already aborted" at once: the caller gets a rejection with that
    message, and nothing else in the state changes; no process is spawned,
    no promise is created, and [_memoizedResult] and [_childProcess] of every
    unit are what they were. *)
Theorem run_fired_token (σ : state) (this : uref) (signal : option sref) :
  signal_aborted σ signal = true →
  let σ' := run this signal σ in
  outcome σ' (length (calls σ)) = Some (Rejected "Signal already aborted") ∧
  calls σ' = calls σ ++ [Threw "Signal already aborted"] ∧
  procs σ' = procs σ ∧
  units σ' = units σ ∧
  promises σ' = promises σ ∧
  signals σ' = signals σ ∧
  cleanups σ' = cleanups σ.
Proof.
  intros Hfired σ'. subst σ'. unfold run. rewrite Hfired. cbn.
  split_and!; try reflexivity.
  unfold outcome. cbn. by rewrite list_lookup_middle.
Qed.

(** ** memoize *)

(** C7.  [memoize] allocates one new unit.  It has the [id] and [command] of
    the source, its [_memoizedResult] is the very reference the source holds
    at that moment ([None] when the source holds none), and its
    [_childProcess] is [None].  The source and every other object are left as
    they were. *)
Theorem memoize_shares_result (σ : state) (this : uref) (u : PredictedProcess) :
  units σ !! this = Some u →
  let σ' := memoize this σ in
  let copy := length (units σ) in
  copy ≠ this ∧
  (∃ v, units σ' !! copy = Some v ∧
        id v = id u ∧ command v = command u ∧
        _memoizedResult v = _memoizedResult u ∧
        _childProcess v = None) ∧
  memoizedResult_of σ' copy = memoizedResult_of σ this ∧
  childProcess_of σ' copy = None ∧
  units σ' !! this = Some u ∧
  length (units σ') = S (length (units σ)) ∧
  promises σ' = promises σ ∧ procs σ' = procs σ ∧
  signals σ' = signals σ ∧ calls σ' = calls σ.
Proof.
  intros Hu σ' copy. subst σ' copy. unfold memoize. rewrite Hu. cbn.
  pose proof (lookup_lt_Some _ _ _ Hu) as Hlt.
  split_and!; try reflexivity.
  - lia.
  - eexists. rewrite list_lookup_middle by done. by split_and!.
  - unfold memoizedResult_of. cbn. rewrite list_lookup_middle by done. by rewrite Hu.
  - unfold childProcess_of. cbn. by rewrite list_lookup_middle.
  - by apply lookup_app_l_Some.
  - rewrite length_app. cbn. lia.
Qed.

(** ** What [run] does, case by case *)

Section run_cases.
Implicit Types (σ : state) (this : uref) (signal : option sref).

Lemma spawn_promise_fst this signal σ :
  (spawn_promise this signal σ).1 = length (promises σ).
Proof. reflexivity. Qed.

Lemma spawn_promise_promises this signal σ :
  promises (spawn_promise this signal σ).2 = promises σ ++ [Pending].
Proof. by destruct signal. Qed.

Lemma spawn_promise_procs this signal σ :
  procs (spawn_promise this signal σ).2 =
    procs σ ++ [mkChildProcess (default "" (command <$> units σ !! this))
                  [OnError (mkClosure this (length (promises σ)));
                   OnClose (mkClosure this (length (promises σ)))] 0].
Proof. by destruct signal. Qed.

Lemma spawn_promise_units this signal σ :
  units (spawn_promise this signal σ).2 =
    alter (with_memoizedResult (Some (length (promises σ)))) this
      (alter (with_childProcess (Some (length (procs σ)))) this (units σ)).
Proof. by destruct signal. Qed.

Lemma spawn_promise_signals this signal σ :
  signals (spawn_promise this signal σ).2 =
    match signal with
    | Some s => alter (with_listener (mkClosure this (length (promises σ)))) s (signals σ)
    | None => signals σ
    end.
Proof. by destruct signal. Qed.

Lemma spawn_promise_rest this signal σ :
  calls (spawn_promise this signal σ).2 = calls σ ∧
  cleanups (spawn_promise this signal σ).2 = cleanups σ.
Proof. by destruct signal. Qed.


(** With a promise in the slot, [run] suspends on it and touches nothing. *)
Lemma run_awaits this signal σ p :
  signal_aborted σ signal = false →
  memoizedResult_of σ this = Some p →
  run this signal σ = set_calls (λ cs, cs ++ [Awaiting this p signal]) σ.
Proof.
  intros Hs Hm. unfold run. by rewrite Hs, Hm.
Qed.

Lemma memoizedResult_of_alter this r σ u :
  units σ !! this = Some u →
  memoizedResult_of (assign_memoizedResult this r σ) this = r.
Proof.
  intros Hu. unfold memoizedResult_of, assign_memoizedResult, set_units. cbn [units].
  by rewrite list_lookup_alter_eq, Hu.
Qed.
End run_cases.

(** ** Failures are not kept *)


(** ** The continuation of a suspended invocation *)

Section resume_cases.
Implicit Types (σ : state) (this : uref) (signal : option sref).

Lemma resume_resolved c this p signal σ :
  calls σ !! c = Some (Awaiting this p signal) →
  promises σ !! p = Some Resolved →
  resume c σ =
    set_calls (<[c := Returned (run_tail this signal σ).1]>) (run_tail this signal σ).2.
Proof.
  intros Hc Hp. unfold resume. rewrite Hc, Hp. cbn [after_await].
  by destruct (run_tail this signal σ).
Qed.

Lemma resume_rejected c this p signal m σ :
  calls σ !! c = Some (Awaiting this p signal) →
  promises σ !! p = Some (Rejected m) →
  resume c σ =
    let σ' := after_await this (Rejected m) σ in
    set_calls (<[c := Returned (run_tail this signal σ').1]>) (run_tail this signal σ').2.
Proof.
  intros Hc Hp. unfold resume. rewrite Hc, Hp. cbn zeta.
  by destruct (run_tail this signal (after_await this (Rejected m) σ)).
Qed.

Lemma run_tail_reuses this signal σ p :
  memoizedResult_of σ this = Some p → run_tail this signal σ = (p, σ).
Proof. intros Hm. unfold run_tail. by rewrite Hm. Qed.

Lemma run_tail_spawns this signal σ :
  memoizedResult_of σ this = None → run_tail this signal σ = spawn_promise this signal σ.
Proof. intros Hm. unfold run_tail. by rewrite Hm. Qed.
End resume_cases.

(** ** A copy keeps the failed promise until it runs *)

(** C8.  Let unit [s] hold in [_memoizedResult] the pending promise of an
    execution owned by another unit (as after [memoize]), and let that
    execution fail.  The handler clears the field of the owning unit only;
    unit [s] itself is untouched and still refers to the promise, now
    rejected.  When [run] is then called on [s] it suspends on that promise
    without changing any unit; its continuation catches the rejection and
    clears the field of [s], and of no other unit, before it spawns a child
    of its own. *)
Theorem stale_failure_in_copy (σ : state) (k : closure) (n : notification)
    (u v : PredictedProcess) (s : uref) (signal : option sref) :
  this_of k ≠ s →
  units σ !! this_of k = Some u →
  units σ !! s = Some v →
  _memoizedResult v = Some (promise_of k) →
  promises σ !! promise_of k = Some Pending →
  is_failure n = true →
  signal_aborted (deliver k n σ) signal = false →
  let σ1 := deliver k n σ in
  let σ2 := run s signal σ1 in
  let c := length (calls σ1) in
  let σ3 := after_await s (Rejected (failure_message n)) σ2 in
  let σ4 := resume c σ2 in
  (promises σ1 !! promise_of k = Some (Rejected (failure_message n)) ∧
   memoizedResult_of σ1 (this_of k) = None ∧
   units σ1 !! s = Some v ∧
   memoizedResult_of σ1 s = Some (promise_of k)) ∧
  (calls σ2 !! c = Some (Awaiting s (promise_of k) signal) ∧
   units σ2 = units σ1 ∧ procs σ2 = procs σ1 ∧ promises σ2 = promises σ1) ∧
  (memoizedResult_of σ3 s = None ∧
   ∀ t, t ≠ s → units σ3 !! t = units σ1 !! t) ∧
  (σ4 = set_calls (<[c := Returned (length (promises σ1))]>) (spawn_promise s signal σ3).2 ∧
   memoizedResult_of σ4 s = Some (length (promises σ1)) ∧
   memoizedResult_of σ4 (this_of k) = None ∧
   length (procs σ4) = S (length (procs σ1))).
Proof.
  intros Hne Hu Hv Hmv Hp Hn Hs σ1 σ2 c σ3 σ4.
  pose proof (deliver_failure_units k n σ Hn) as Hunits.
  pose proof (deliver_failure_promises k n σ Hn) as Hproms.
  fold σ1 in Hunits, Hproms.
  assert (Hrej : promises σ1 !! promise_of k = Some (Rejected (failure_message n))).
  { by rewrite Hproms, list_lookup_alter_eq, Hp. }
  assert (Hmu : memoizedResult_of σ1 (this_of k) = None).
  { unfold memoizedResult_of. by rewrite Hunits, list_lookup_alter_eq, Hu. }
  assert (Hv1 : units σ1 !! s = Some v).
  { by rewrite Hunits, list_lookup_alter_ne. }
  assert (Hms : memoizedResult_of σ1 s = Some (promise_of k)).
  { unfold memoizedResult_of. by rewrite Hv1. }
  assert (Hrun : σ2 = set_calls (λ cs, cs ++ [Awaiting s (promise_of k) signal]) σ1).
  { subst σ2. by apply run_awaits. }
  assert (Hm3 : memoizedResult_of σ3 s = None).
  { subst σ3. cbn [after_await]. eapply memoizedResult_of_alter.
    rewrite Hrun. exact Hv1. }
  assert (Hother : ∀ t, t ≠ s → units σ3 !! t = units σ1 !! t).
  { intros t Ht. subst σ3. rewrite Hrun. cbn. by rewrite list_lookup_alter_ne. }
  assert (H4 : σ4 = set_calls (<[c := Returned (length (promises σ1))]>)
                      (spawn_promise s signal σ3).2).
  { subst σ4. erewrite resume_rejected.
    - cbn zeta. fold σ3. rewrite run_tail_spawns by done.
      rewrite spawn_promise_fst. subst σ3. by rewrite Hrun.
    - rewrite Hrun. cbn. subst c. by rewrite list_lookup_middle.
    - by rewrite Hrun. }
  split_and!; try done.
  - rewrite Hrun. cbn. subst c. by rewrite list_lookup_middle.
  - by rewrite Hrun.
  - by rewrite Hrun.
  - by rewrite Hrun.
  - rewrite H4. unfold memoizedResult_of. cbn [units set_calls].
    rewrite spawn_promise_units, !list_lookup_alter_eq.
    subst σ3. rewrite Hrun. cbn. rewrite list_lookup_alter_eq, Hv1. done.
  - rewrite H4. unfold memoizedResult_of. cbn [units set_calls].
    rewrite spawn_promise_units, !list_lookup_alter_ne by done.
    rewrite Hother by done. exact Hmu.
  - rewrite H4. cbn [procs set_calls]. rewrite spawn_promise_procs, length_app.
    subst σ3. rewrite Hrun. cbn. lia.
Qed.

(** ** Release of the child on settlement *)

(** C4, as amended.  Whichever notification reaches an execution (error,
    exit with any code, or cancellation), its handler runs [cleanup] at
    least once before it settles the promise: the child held in
    [_childProcess] loses all its listeners and is killed, and a pending
    promise is settled with the outcome of that notification.  The field
    [_childProcess] is not reset: it still refers to the released child. *)
Theorem settlement_releases_child (σ : state) (k : closure) (n : notification)
    (u : PredictedProcess) (h : href) (c : ChildProcess) :
  units σ !! this_of k = Some u →
  _childProcess u = Some h →
  procs σ !! h = Some c →
  promises σ !! promise_of k = Some Pending →
  let σ' := deliver k n σ in
  (∃ c', procs σ' !! h = Some c' ∧ listeners c' = [] ∧ kills c < kills c') ∧
  cleanups σ < cleanups σ' ∧
  promises σ' !! promise_of k = Some (verdict n) ∧
  childProcess_of σ' (this_of k) = Some h.
Proof.
  intros Hu Hh Hc Hp σ'.
  assert (Hchild : childProcess_of σ (this_of k) = Some h).
  { unfold childProcess_of. rewrite Hu. exact Hh. }
  assert (Hclean : ∀ τ, units τ = units σ →
            procs (cleanup (this_of k) τ) = alter release h (procs τ)).
  { intros τ Hτ. rewrite cleanup_procs. unfold childProcess_of. rewrite Hτ, Hu. cbn.
    by rewrite Hh. }
  destruct (is_failure n) eqn:Hn.
  - pose proof (deliver_failure_units k n σ Hn) as Hunits.
    pose proof (deliver_failure_promises k n σ Hn) as Hproms.
    fold σ' in Hunits, Hproms.
    assert (Hrest : (procs σ' = alter release h (procs σ) ∧ cleanups σ' = S (cleanups σ)) ∨
              (procs σ' = alter release h (alter release h (procs σ)) ∧
               cleanups σ' = S (S (cleanups σ)))).
    { subst σ'. rewrite deliver_failure by done. rewrite handleError_procs.
      rewrite (proj2 (proj2 (handleError_rest _ _ _))).
      destruct n as [m|code|]; [left|right|left].
      all: rewrite !Hclean; rewrite ?(proj1 (cleanup_rest _ σ)); try done.
      by destruct (cleanup_rest (this_of k) σ) as (_ & _ & _ & _ & ->). }
    split_and!.
    + destruct Hrest as [[-> _]|[-> _]]; rewrite !list_lookup_alter_eq, Hc; cbn;
        eexists; (split_and!; [done|done|cbn; lia]).
    + destruct Hrest as [[_ ->]|[_ ->]]; lia.
    + unfold verdict. by rewrite Hn, Hproms, list_lookup_alter_eq, Hp.
    + unfold childProcess_of. by rewrite Hunits, list_lookup_alter_eq, Hu.
  - destruct n as [m|[[| |]|]|]; try done. subst σ'. rewrite deliver_success.
    destruct (cleanup_rest (this_of k) σ) as (Hus & Hps & _ & _ & Hcl).
    split_and!.
    + cbn. rewrite Hclean by done. rewrite list_lookup_alter_eq, Hc. cbn.
      eexists. split_and!; [done|done|cbn; lia].
    + cbn. lia.
    + cbn. by rewrite Hps, list_lookup_alter_eq, Hp.
    + unfold childProcess_of. cbn. by rewrite Hus, Hu.
Qed.

(** ** The messages of the failures *)

Lemma code_text_reads_back (code : Z) :
  Z.of_int <$> NilZero.int_of_string (code_text (Some code)) = Some code.
Proof.
  cbn [code_text].
  destruct (decide (code = 0%Z)) as [->|Hne]; [done|].
  rewrite NilZero.isi.
  - cbn. by rewrite DecimalZ.of_to.
  - destruct code; try done; cbn; intros [= H]; by apply DecimalPos.Unsigned.to_uint_nonnil in H.
  - destruct code; try done; cbn; intros [= H]; by apply DecimalPos.Unsigned.to_uint_nonnil in H.
Qed.

(** C9.  The three failures the class creates itself carry these messages:
    a token already fired at the call gives "Signal already aborted"; an
    exit with a code other than 0 gives "Process exited with code " followed
    by the code in decimal; a token firing during the execution gives
    "AbortSignal triggered".  Each reaches the caller as the rejection of the
    promise [run] handed out. *)
Theorem failure_messages (σ τ : state) (this : uref) (signal : option sref)
    (k : closure) (code : Z) (c : nat) :
  signal_aborted σ signal = true →
  code ≠ 0%Z →
  promises τ !! promise_of k = Some Pending →
  calls τ !! c = Some (Returned (promise_of k)) →
  outcome (run this signal σ) (length (calls σ)) =
    Some (Rejected "Signal already aborted") ∧
  outcome (handleClose k (Some code) τ) c =
    Some (Rejected ("Process exited with code " +:+ NilZero.string_of_int (Z.to_int code))) ∧
  Z.of_int <$> NilZero.int_of_string (NilZero.string_of_int (Z.to_int code)) = Some code ∧
  outcome (handleAbort k τ) c = Some (Rejected "AbortSignal triggered").
Proof.
  intros Hs Hcode Hp Hc. split_and!.
  - unfold run. rewrite Hs. unfold outcome. cbn. by rewrite list_lookup_middle.
  - change (handleClose k (Some code) τ) with (deliver k (NClose (Some code)) τ).
    assert (Hf : is_failure (NClose (Some code)) = true) by by destruct code.
    unfold outcome.
    rewrite (proj2 (deliver_signals_calls _ _ _)), Hc.
    by rewrite deliver_failure_promises, list_lookup_alter_eq, Hp.
  - apply (code_text_reads_back code).
  - change (handleAbort k τ) with (deliver k NAbort τ). unfold outcome.
    rewrite (proj2 (deliver_signals_calls _ _ _)), Hc.
    by rewrite deliver_failure_promises, list_lookup_alter_eq, Hp.
Qed.

(** ** Callers that arrive while an execution is in flight *)

#[local] Arguments spawn_promise : simpl never.

Section convergence.
Implicit Types (σ : state) (this : uref) (signal : option sref).



(** The 'close' event with code 0 on a child that carries the two
    listeners of a pending execution resolves that execution. *)
Lemma emit_close_0 σ this p h child :
  childProcess_of σ this = Some h →
  procs σ !! h = Some child →
  listeners child = [OnError (mkClosure this p); OnClose (mkClosure this p)] →
  emit h (EvClose (Some 0%Z)) σ =
    resolve p (set_procs (alter release h) (count_cleanup σ)).
Proof.
  intros Hh Hc Hl. unfold emit. rewrite Hc, Hl. cbn [fold_left invoke].
  unfold handleClose, cleanup. cbn [this_of promise_of].
  change (childProcess_of (count_cleanup σ) this) with (childProcess_of σ this).
  by rewrite Hh.
Qed.

End convergence.


(** ** Promises no token can reach *)

Section reach.
Implicit Types (σ : state) (k : closure) (p : pref) (h : href).

Lemma closures_bounded_lookup σ :
  closures_bounded σ ↔
    (∀ h c l, procs σ !! h = Some c → l ∈ listeners c →
              promise_of (closure_of l) < length (promises σ)) ∧
    (∀ s sg k, signals σ !! s = Some sg → k ∈ abort_listeners sg →
               promise_of k < length (promises σ)).
Proof.
  unfold closures_bounded. rewrite !Forall_lookup.
  split; intros [Hprocs Hsigs]; split.
  - intros h c l Hc Hl. specialize (Hprocs h c Hc). rewrite Forall_forall in Hprocs. eauto.
  - intros s sg k Hsg Hk. specialize (Hsigs s sg Hsg). rewrite Forall_forall in Hsigs. eauto.
  - intros h c Hc. apply Forall_forall. eauto.
  - intros s sg Hsg. apply Forall_forall. eauto.
Qed.

Lemma release_lookup (cs : list ChildProcess) i j c' :
  alter release i cs !! j = Some c' →
  ∃ c, cs !! j = Some c ∧ ∀ l, l ∈ listeners c' → l ∈ listeners c.
Proof.
  rewrite list_lookup_alter. case_decide as Hij.
  - subst j. destruct (cs !! i) as [c|]; [|done]. intros [= <-].
    exists c. split; [done|]. cbn. intros l Hl. by apply elem_of_nil in Hl.
  - intros Hc. by exists c'.
Qed.

Lemma cleanup_lookup this σ j c' :
  procs (cleanup this σ) !! j = Some c' →
  ∃ c, procs σ !! j = Some c ∧ ∀ l, l ∈ listeners c' → l ∈ listeners c.
Proof.
  rewrite cleanup_procs. destruct (childProcess_of σ this).
  - apply release_lookup.
  - intros Hc. by exists c'.
Qed.

Lemma handleError_lookup k m σ j c' :
  procs (handleError k m σ) !! j = Some c' →
  ∃ c, procs σ !! j = Some c ∧ ∀ l, l ∈ listeners c' → l ∈ listeners c.
Proof. rewrite handleError_procs. apply cleanup_lookup. Qed.

Lemma deliver_lookup k n σ j c' :
  procs (deliver k n σ) !! j = Some c' →
  ∃ c, procs σ !! j = Some c ∧ ∀ l, l ∈ listeners c' → l ∈ listeners c.
Proof.
  destruct n as [m|code|]; cbn [deliver handleAbort]; try apply handleError_lookup.
  unfold handleClose.
  assert (∀ τ m, τ = cleanup (this_of k) σ →
            procs (handleError k m τ) !! j = Some c' →
            ∃ c, procs σ !! j = Some c ∧ ∀ l, l ∈ listeners c' → l ∈ listeners c) as Hfail.
  { intros τ m -> Hc. apply handleError_lookup in Hc as (c1 & Hc1 & Hin1).
    apply cleanup_lookup in Hc1 as (c & Hc & Hin). exists c. naive_solver. }
  destruct code as [[| |]|]; try (by apply Hfail).
  cbn. apply cleanup_lookup.
Qed.













End reach.

(** ** Every state a trace can reach has bounded closures *)

Section bounded.
Implicit Types (σ : state) (k : closure).

Lemma deliver_length_promises k n σ :
  length (promises (deliver k n σ)) = length (promises σ).
Proof.
  destruct (is_failure n) eqn:Hn.
  - by rewrite deliver_failure_promises, length_alter.
  - destruct n as [m|[[| |]|]|]; try done. rewrite deliver_success. cbn.
    by rewrite length_alter, (proj1 (proj2 (cleanup_rest _ σ))).
Qed.

Lemma deliver_bounded k n σ :
  closures_bounded σ → closures_bounded (deliver k n σ).
Proof.
  intros (Hprocs & Hsigs)%closures_bounded_lookup. apply closures_bounded_lookup. split.
  - intros h c' l Hc' Hl. rewrite deliver_length_promises.
    apply deliver_lookup in Hc' as (c & Hc & Hin). eauto.
  - intros s sg k'. rewrite deliver_length_promises.
    rewrite (proj1 (deliver_signals_calls k n σ)). apply Hsigs.
Qed.

Lemma invoke_bounded ev l σ :
  closures_bounded σ → closures_bounded (invoke ev l σ).
Proof.
  intros Hb. destruct ev as [m|code], l as [k|k]; cbn [invoke]; try done.
  - by apply (deliver_bounded k (NError m)).
  - by apply (deliver_bounded k (NClose code)).
Qed.

Lemma fold_invoke_bounded ev ls σ :
  closures_bounded σ → closures_bounded (fold_left (λ σ l, invoke ev l σ) ls σ).
Proof.
  revert σ. induction ls as [|l ls IH]; intros σ Hb; [done|].
  cbn. by apply IH, invoke_bounded.
Qed.

Lemma fold_abort_bounded ks σ :
  closures_bounded σ → closures_bounded (fold_left (λ σ k, handleAbort k σ) ks σ).
Proof.
  revert σ. induction ks as [|k ks IH]; intros σ Hb; [done|].
  cbn. by apply IH, (deliver_bounded k NAbort).
Qed.

Lemma spawn_promise_bounded this signal σ :
  closures_bounded σ → closures_bounded (spawn_promise this signal σ).2.
Proof.
  intros (Hprocs & Hsigs)%closures_bounded_lookup. apply closures_bounded_lookup. split.
  - intros h c l. rewrite spawn_promise_procs, spawn_promise_promises, length_app.
    intros [[_ Hc]|[_ <-]]%lookup_snoc_Some Hl.
    + specialize (Hprocs _ _ _ Hc Hl). lia.
    + cbn in Hl. apply elem_of_cons in Hl as [->|Hl]; [cbn; lia|].
      apply list_elem_of_singleton in Hl as ->. cbn. lia.
  - intros s sg k. rewrite spawn_promise_signals, spawn_promise_promises, length_app.
    destruct signal as [s0|].
    + rewrite list_lookup_alter. case_decide as Hss.
      * subst s. destruct (signals σ !! s0) as [sg0|] eqn:Hsg0; [|done].
        intros [= <-]. cbn. intros [Hk|Hk]%elem_of_app.
        -- specialize (Hsigs _ _ _ Hsg0 Hk). lia.
        -- apply list_elem_of_singleton in Hk as ->. cbn. lia.
      * intros Hsg Hk. specialize (Hsigs _ _ _ Hsg Hk). lia.
    + intros Hsg Hk. specialize (Hsigs _ _ _ Hsg Hk). lia.
Qed.

Lemma run_tail_bounded this signal σ :
  closures_bounded σ → closures_bounded (run_tail this signal σ).2.
Proof.
  intros Hb. unfold run_tail. destruct (memoizedResult_of σ this); [done|].
  by apply spawn_promise_bounded.
Qed.

Lemma step_bounded a σ : closures_bounded σ → closures_bounded (step σ a).
Proof.
  intros Hb. destruct a as [i cmd| |this signal|c|h ev|s|this]; cbn [step].
  - done.
  - apply closures_bounded_lookup in Hb as (Hprocs & Hsigs).
    apply closures_bounded_lookup. split; [done|].
    intros s sg k. cbn. intros [[_ Hsg]|[_ <-]]%lookup_snoc_Some; [by eapply Hsigs|].
    cbn. by intros ?%elem_of_nil.
  - unfold run. destruct (signal_aborted σ signal); [done|].
    destruct (memoizedResult_of σ this) eqn:Hm; [done|].
    pose proof (run_tail_bounded this signal σ Hb) as Hb'.
    by destruct (run_tail this signal σ).
  - unfold resume. destruct (calls σ !! c) as [[m|this q signal|q]|]; try done.
    destruct (promises σ !! q) as [[| |m]|]; try done.
    + pose proof (run_tail_bounded this signal _ Hb) as Hb'.
      cbn [after_await]. by destruct (run_tail this signal σ).
    + assert (closures_bounded (after_await this (Rejected m) σ)) as Hb' by done.
      apply (run_tail_bounded this signal) in Hb'.
      by destruct (run_tail this signal (after_await this (Rejected m) σ)).
  - unfold emit. destruct (procs σ !! h); [|done]. by apply fold_invoke_bounded.
  - unfold abort. destruct (signals σ !! s) as [sg|] eqn:Hsg; [|done].
    destruct (aborted sg); [done|]. apply fold_abort_bounded.
    apply closures_bounded_lookup in Hb as (Hprocs & Hsigs).
    apply closures_bounded_lookup. split; [done|].
    intros s' sg' k. cbn. rewrite list_lookup_alter. case_decide as Hss.
    + subst s'. rewrite Hsg. intros [= <-]. cbn. by apply (Hsigs s).
    + apply Hsigs.
  - unfold memoize. by destruct (units σ !! this).
Qed.

Lemma exec_bounded tr σ : closures_bounded σ → closures_bounded (exec tr σ).
Proof.
  revert σ. induction tr as [|a tr IH]; intros σ Hb; [done|].
  cbn. by apply IH, step_bounded.
Qed.

Lemma init_bounded : closures_bounded init.
Proof. by split. Qed.

Lemma reachable_bounded tr : closures_bounded (exec tr init).
Proof. apply exec_bounded, init_bounded. Qed.
End bounded.

(** ** Success is reused, until a stale listener clears it *)

(** X1.  While [_memoizedResult] holds a resolved promise, a call of [run]
    with a token that has not fired suspends on it, and its continuation
    returns that promise: the caller gets the success, no child is spawned
    and no unit changes. *)
Lemma success_is_reused (σ : state) (this : uref) (p : pref) (signal : option sref) :
  memoizedResult_of σ this = Some p →
  promises σ !! p = Some Resolved →
  signal_aborted σ signal = false →
  let c := length (calls σ) in
  let σ' := resume c (run this signal σ) in
  outcome σ' c = Some Resolved ∧
  procs σ' = procs σ ∧ units σ' = units σ ∧ promises σ' = promises σ.
Proof.
  intros Hm Hp Hs c σ'.
  assert (H1 : run this signal σ = set_calls (λ cs, cs ++ [Awaiting this p signal]) σ)
    by by apply run_awaits.
  assert (H2 : σ' = set_calls (<[c := Returned p]>) (run this signal σ)).
  { subst σ'. erewrite resume_resolved.
    - erewrite run_tail_reuses; [done|]. by rewrite H1.
    - rewrite H1. cbn. by apply list_lookup_middle.
    - by rewrite H1. }
  rewrite H2, H1. cbn. split_and!; try done.
  unfold outcome. cbn. rewrite list_lookup_insert_eq; [done|].
  rewrite length_app. cbn. subst c. lia.
Qed.

(** A notification that reaches a promise already settled does not change
    how it was settled. *)
Lemma settled_once (σ : state) (k : closure) (n : notification) (v : promise) :
  promises σ !! promise_of k = Some v → v ≠ Pending →
  promises (deliver k n σ) !! promise_of k = Some v.
Proof.
  intros Hp Hv. destruct (is_failure n) eqn:Hn.
  - rewrite deliver_failure_promises, list_lookup_alter_eq, Hp by done. by destruct v.
  - destruct n as [m|[[| |]|]|]; try done. rewrite deliver_success. cbn.
    rewrite list_lookup_alter_eq, (proj1 (proj2 (cleanup_rest _ σ))), Hp. by destruct v.
Qed.

(** C1.  The code does not keep a success for every later call.  "exit 0"
    is run under a token and succeeds, so [_memoizedResult] holds the
    resolved promise.  The 'abort' listener of that call is still attached to
    the signal; when the token fires afterwards, [handleError] runs and sets
    [_memoizedResult] to null.  The next [run], made without a token, finds
    the field empty and spawns a second child; its promise is pending, not
    the cached success. *)
Theorem late_abort_forgets_success :
  outcome succeeded 0 = Some Resolved ∧
  memoizedResult_of succeeded 0 = Some 0 ∧
  length (procs succeeded) = 1 ∧
  memoizedResult_of (abort 0 succeeded) 0 = None ∧
  signal_aborted (abort 0 succeeded) None = false ∧
  let σ' := run 0 None (abort 0 succeeded) in
  length (procs σ') = 2 ∧
  calls σ' !! 1 = Some (Returned 1) ∧
  outcome σ' 1 = Some Pending.
Proof. by vm_compute. Qed.

(** C5.  A notification that arrives after the execution has settled is
    not a no-op.  After "exit 0" has succeeded, the firing of the token
    reaches [handleError]: the outcome stays resolved, but [cleanup] runs a
    second time, the child is killed a second time, and [_memoizedResult] of
    the unit goes from the resolved promise to null. *)
Theorem late_abort_mutates_unit :
  let σ' := abort 0 succeeded in
  outcome succeeded 0 = Some Resolved ∧ outcome σ' 0 = Some Resolved ∧
  cleanups succeeded = 1 ∧ cleanups σ' = 2 ∧
  kills <$> procs succeeded !! 0 = Some 1 ∧ kills <$> procs σ' !! 0 = Some 2 ∧
  memoizedResult_of succeeded 0 = Some 0 ∧ memoizedResult_of σ' 0 = None ∧
  σ' ≠ succeeded.
Proof. vm_compute. split_and!; done. Qed.

(** C4 fails as stated: after the settlement of "exit 0" (success) and of
    "exit 1" (failure) the field [_childProcess] still holds child 0, and on
    the failing exit [cleanup] has run twice. *)
Lemma settlement_keeps_child_field :
  (outcome succeeded 0 = Some Resolved ∧
   ¬ (cleanups succeeded = 1 ∧ childProcess_of succeeded 0 = None)) ∧
  (outcome failed 0 = Some (Rejected "Process exited with code 1") ∧
   childProcess_of failed 0 = Some 0 ∧ cleanups failed = 2 ∧
   ¬ (cleanups failed = 1 ∧ childProcess_of failed 0 = None)).
Proof.
  vm_compute. split_and!; try done; by intros [_ [=]].
Qed.


(** ** An invocation that has returned keeps its promise *)

Section returned.
Implicit Types (σ : state) (c : nat) (p : pref).





End returned.

(** ** A call without token *)

Lemma memoizedResult_of_cleared (σ : state) (this : uref) :
  memoizedResult_of (assign_memoizedResult this None σ) this = None.
Proof.
  unfold memoizedResult_of, assign_memoizedResult, set_units. cbn [units].
  rewrite list_lookup_alter_eq. by destruct (units σ !! this).
Qed.



(** ** The theorems on the sample runs *)

(** [run_fired_token] on [running_fired]: unit 0 is called with signal 1,
    which has fired. *)
Lemma run_fired_token_witness :
  signal_aborted running_fired (Some 1) = true ∧
  outcome (run 0 (Some 1) running_fired) 1 = Some (Rejected "Signal already aborted") ∧
  procs (run 0 (Some 1) running_fired) = procs running_fired ∧
  units (run 0 (Some 1) running_fired) = units running_fired.
Proof.
  split; [reflexivity|].
  destruct (run_fired_token running_fired 0 (Some 1) eq_refl) as (H1 & _ & H2 & H3 & _).
  split; [exact H1|]. split; [exact H2|exact H3].
Defined.

(** [memoize_shares_result] on [running]: the copy of unit 0 is unit 1 and
    holds promise 0. *)
Lemma memoize_shares_result_witness :
  units running !! 0 = Some (mkPredictedProcess 1 "sleep 1; exit 0" (Some 0) (Some 0)) ∧
  memoizedResult_of (memoize 0 running) 1 = Some 0 ∧
  childProcess_of (memoize 0 running) 1 = None.
Proof.
  split; [reflexivity|].
  destruct (memoize_shares_result running 0 _ eq_refl) as (_ & _ & H1 & H2 & _).
  split; [exact H1|exact H2].
Defined.


(** [settlement_releases_child] on [running]: the token fires. *)
Lemma settlement_releases_child_witness :
  units running !! 0 = Some (mkPredictedProcess 1 "sleep 1; exit 0" (Some 0) (Some 0)) ∧
  promises running !! 0 = Some Pending ∧
  (∃ c', procs (deliver (mkClosure 0 0) NAbort running) !! 0 = Some c' ∧
         listeners c' = [] ∧ 0 < kills c') ∧
  0 < cleanups (deliver (mkClosure 0 0) NAbort running) ∧
  promises (deliver (mkClosure 0 0) NAbort running) !! 0 =
    Some (Rejected "AbortSignal triggered") ∧
  childProcess_of (deliver (mkClosure 0 0) NAbort running) 0 = Some 0.
Proof.
  split; [reflexivity|]. split; [reflexivity|].
  exact (settlement_releases_child running (mkClosure 0 0) NAbort _ 0 _
           eq_refl eq_refl eq_refl eq_refl).
Defined.


(** [stale_failure_in_copy] on [running_copied]: the child of unit 0 exits
    with code 1 while unit 1, its copy, holds the same promise. *)
Lemma stale_failure_in_copy_witness :
  let k := mkClosure 0 0 in
  let n := NClose (Some 1%Z) in
  let σ1 := deliver k n running_copied in
  let σ2 := run 1 None σ1 in
  units running_copied !! 0 = Some (mkPredictedProcess 1 "sleep 1; exit 0" (Some 0) (Some 0)) ∧
  units running_copied !! 1 = Some (mkPredictedProcess 1 "sleep 1; exit 0" None (Some 0)) ∧
  promises running_copied !! 0 = Some Pending ∧
  signal_aborted σ1 None = false ∧
  (memoizedResult_of σ1 0 = None ∧ memoizedResult_of σ1 1 = Some 0) ∧
  calls σ2 !! 1 = Some (Awaiting 1 0 None) ∧
  memoizedResult_of (after_await 1 (Rejected (failure_message n)) σ2) 1 = None ∧
  memoizedResult_of (resume 1 σ2) 1 = Some 1 ∧
  length (procs (resume 1 σ2)) = 2.
Proof.
  intros k n σ1 σ2.
  destruct (stale_failure_in_copy running_copied k n _ _ 1 None
              (ltac:(discriminate) : this_of k ≠ 1)
              eq_refl eq_refl eq_refl eq_refl eq_refl eq_refl)
    as ((_ & H1 & _ & H2) & (H3 & _) & (H4 & _) & (_ & H5 & _ & H6)).
  do 4 (split; [reflexivity|]).
  split; [split; [exact H1|exact H2]|].
  split; [exact H3|]. split; [exact H4|]. split; [exact H5|exact H6].
Defined.

(** [failure_messages]: signal 1 of [running_fired] has fired; the child of
    [running] exits with code 137, or its token fires. *)
Lemma failure_messages_witness :
  signal_aborted running_fired (Some 1) = true ∧
  137%Z ≠ 0%Z ∧
  promises running !! 0 = Some Pending ∧
  calls running !! 0 = Some (Returned 0) ∧
  outcome (run 0 (Some 1) running_fired) 1 = Some (Rejected "Signal already aborted") ∧
  outcome (handleClose (mkClosure 0 0) (Some 137%Z) running) 0 =
    Some (Rejected "Process exited with code 137") ∧
  outcome (handleAbort (mkClosure 0 0) running) 0 = Some (Rejected "AbortSignal triggered").
Proof.
  destruct (failure_messages running_fired running 0 (Some 1) (mkClosure 0 0) 137 0
              eq_refl (ltac:(discriminate) : 137%Z ≠ 0%Z) eq_refl eq_refl)
    as (H1 & H2 & _ & H3).
  split; [reflexivity|]. split; [discriminate|]. split; [reflexivity|].
  split; [reflexivity|]. split; [exact H1|]. split; [exact H2|exact H3].
Defined.


(** * Further properties of the class *)

Lemma deliver_length_procs (k : closure) (n : notification) (τ : state) : length (procs (deliver k n τ)) = length (procs τ).
Proof.
  assert (∀ τ', length (procs (cleanup (this_of k) τ')) = length (procs τ')) as Hc.
  { intros τ'. rewrite cleanup_procs. destruct (childProcess_of τ' (this_of k)); [|done].
    by rewrite length_alter. }
  assert (∀ m τ', length (procs (handleError k m τ')) = length (procs τ')) as He.
  { intros m τ'. by rewrite handleError_procs. }
  destruct n as [m|code|]; cbn [deliver handleAbort]; [apply He| |apply He].
  unfold handleClose. destruct code as [[| |]|]; rewrite ?He; apply Hc.
Qed.

(** ** After the first event of a child *)

Lemma deliver_releases (σ : state) (k : closure) (n : notification) (h : href)
    (c : ChildProcess) :
  childProcess_of σ (this_of k) = Some h →
  procs σ !! h = Some c →
  ∃ c', procs (deliver k n σ) !! h = Some c' ∧ listeners c' = [] ∧ kills c < kills c'.
Proof.
  intros Hh Hc.
  assert (∀ τ c0, childProcess_of τ (this_of k) = Some h → procs τ !! h = Some c0 →
            procs (cleanup (this_of k) τ) !! h = Some (release c0)) as Hclean.
  { intros τ c0 Hτ Hc0. by rewrite cleanup_procs, Hτ, list_lookup_alter_eq, Hc0. }
  assert (∀ m τ c0, childProcess_of τ (this_of k) = Some h → procs τ !! h = Some c0 →
            procs (handleError k m τ) !! h = Some (release c0)) as Herr.
  { intros m τ c0 Hτ Hc0. rewrite handleError_procs. by apply Hclean. }
  destruct n as [m|code|]; cbn [deliver handleAbort];
    try (exists (release c); split_and!; [by apply Herr|done|cbn; lia]).
  unfold handleClose.
  pose proof (Hclean σ c Hh Hc) as Hc1.
  assert (childProcess_of (cleanup (this_of k) σ) (this_of k) = Some h) as Hh1
    by by rewrite cleanup_childProcess.
  destruct code as [[| |]|];
    [exists (release c); split_and!; [exact Hc1|done|cbn; lia]
    |exists (release (release c)); split_and!; [by apply Herr|done|cbn; lia]..].
Qed.

(** X2.  A child tells its execution only once.  As long as the child of
    an execution is the one in [_childProcess] of its unit, the first
    notification that reaches the execution (an 'error', a 'close' with any
    code, or the firing of the token) makes [cleanup] remove the listeners
    of the child, and every later event of that child changes nothing at
    all: an exit that comes after a cancellation, or an 'error' after a
    'close', is not seen. *)
Theorem child_events_settle_once (σ : state) (h : href) (child : ChildProcess)
    (k : closure) (ev ev' : event) (n : notification) :
  procs σ !! h = Some child →
  listeners child = [OnError k; OnClose k] →
  childProcess_of σ (this_of k) = Some h →
  emit h ev' (deliver k n σ) = deliver k n σ ∧
  emit h ev' (emit h ev σ) = emit h ev σ.
Proof.
  intros Hc Hl Hh.
  assert (∀ n', emit h ev' (deliver k n' σ) = deliver k n' σ) as Hquiet.
  { intros n'. destruct (deliver_releases σ k n' h child Hh Hc) as (c' & Hc' & Hl' & _).
    by apply (emit_released _ h c'). }
  split; [apply Hquiet|].
  rewrite (emit_delivers σ h child k ev Hc Hl). apply Hquiet.
Qed.

(** X3.  Cancellation during an execution.  When a signal that has not
    fired yet fires and its listener belongs to a pending execution whose
    child is in [_childProcess] of the unit, the child loses its listeners
    and is killed, the promise is rejected with "AbortSignal triggered", the
    field [_memoizedResult] of the unit is cleared, and a later [run] with
    the same token throws "Signal already aborted" without spawning. *)
Theorem cancellation_kills_child (σ : state) (s : sref) (sg : AbortSignal)
    (k : closure) (h : href) (c : ChildProcess) :
  signals σ !! s = Some sg →
  aborted sg = false →
  abort_listeners sg = [k] →
  childProcess_of σ (this_of k) = Some h →
  procs σ !! h = Some c →
  promises σ !! promise_of k = Some Pending →
  let σ' := abort s σ in
  promises σ' !! promise_of k = Some (Rejected "AbortSignal triggered") ∧
  (∃ c', procs σ' !! h = Some c' ∧ listeners c' = [] ∧ kills c < kills c') ∧
  memoizedResult_of σ' (this_of k) = None ∧
  outcome (run (this_of k) (Some s) σ') (length (calls σ)) =
    Some (Rejected "Signal already aborted") ∧
  procs (run (this_of k) (Some s) σ') = procs σ'.
Proof.
  intros Hs Ha Hl Hh Hc Hp σ'.
  assert (H1 : σ' = deliver k NAbort (set_signals (alter fire s) σ))
    by by apply (abort_delivers σ s sg k).
  assert (Hfired : signal_aborted σ' (Some s) = true).
  { rewrite H1. cbn [signal_aborted]. rewrite (proj1 (deliver_signals_calls _ _ _)).
    cbn [signals set_signals]. by rewrite list_lookup_alter_eq, Hs. }
  assert (Hrun : run (this_of k) (Some s) σ' =
            set_calls (λ cs, cs ++ [Threw "Signal already aborted"]) σ').
  { unfold run. by rewrite Hfired. }
  split_and!.
  - rewrite H1, deliver_failure_promises by done. cbn [promises set_signals].
    by rewrite list_lookup_alter_eq, Hp.
  - rewrite H1. by apply (deliver_releases _ k NAbort h c).
  - rewrite H1. unfold memoizedResult_of. rewrite deliver_failure_units by done.
    cbn [units set_signals]. rewrite list_lookup_alter_eq.
    by destruct (units σ !! this_of k).
  - rewrite Hrun. unfold outcome. cbn [calls set_calls].
    rewrite H1, (proj2 (deliver_signals_calls _ _ _)). cbn [calls set_signals].
    by rewrite list_lookup_middle.
  - by rewrite Hrun.
Qed.

(** ** Calls that find an execution in flight *)

(** X6.  The token is looked at only when [run] is called.  If it fires
    while the call is suspended on a promise that ends rejected, the
    continuation does not notice: it spawns a child all the same and
    returns a new pending promise.  Its 'abort' listener is added to a
    signal that has already fired, so firing that signal again does
    nothing and this execution cannot be cancelled through it. *)
Theorem token_fired_while_waiting_is_ignored (σ : state) (c : nat) (this : uref)
    (p : pref) (s : sref) (sg : AbortSignal) (m : string) :
  calls σ !! c = Some (Awaiting this p (Some s)) →
  promises σ !! p = Some (Rejected m) →
  signals σ !! s = Some sg →
  aborted sg = true →
  let σ' := resume c σ in
  length (procs σ') = S (length (procs σ)) ∧
  calls σ' !! c = Some (Returned (length (promises σ))) ∧
  outcome σ' c = Some Pending ∧
  signals σ' !! s = Some (with_listener (mkClosure this (length (promises σ))) sg) ∧
  abort s σ' = σ'.
Proof.
  intros Hc Hp Hs Ha σ'.
  assert (H1 : σ' = set_calls (<[c := Returned (length (promises σ))]>)
                      (spawn_promise this (Some s) (assign_memoizedResult this None σ)).2).
  { subst σ'. rewrite (resume_rejected c this p (Some s) m σ Hc Hp). cbn zeta.
    cbn [after_await].
    by rewrite (run_tail_spawns _ _ _ (memoizedResult_of_cleared σ this)), spawn_promise_fst. }
  assert (Hsig : signals σ' !! s =
            Some (with_listener (mkClosure this (length (promises σ))) sg)).
  { rewrite H1. cbn [signals set_calls]. rewrite spawn_promise_signals.
    change (signals (assign_memoizedResult this None σ)) with (signals σ).
    by rewrite list_lookup_alter_eq, Hs. }
  assert (Hret : calls σ' !! c = Some (Returned (length (promises σ)))).
  { rewrite H1. cbn [calls set_calls]. rewrite (proj1 (spawn_promise_rest _ _ _)).
    apply list_lookup_insert_eq. by eapply lookup_lt_Some. }
  split_and!; try done.
  - rewrite H1. cbn [procs set_calls]. rewrite spawn_promise_procs, length_app. cbn. lia.
  - unfold outcome. rewrite Hret, H1. cbn [promises set_calls].
    rewrite spawn_promise_promises. by apply list_lookup_middle.
  - unfold abort. rewrite Hsig. cbn [aborted with_listener]. by rewrite Ha.
Qed.

(** X4.  A caller that joined an execution never receives the failure of
    that execution.  It suspends on the pending promise; when a failure
    rejects the promise, its continuation catches the rejection, spawns one
    more child and returns a new pending promise instead. *)
Theorem joiner_retries_after_failure (σ : state) (this : uref) (p : pref)
    (signal : option sref) (n : notification) :
  memoizedResult_of σ this = Some p →
  promises σ !! p = Some Pending →
  signal_aborted σ signal = false →
  is_failure n = true →
  let c := length (calls σ) in
  let σ1 := run this signal σ in
  let σ2 := deliver (mkClosure this p) n σ1 in
  let σ3 := resume c σ2 in
  calls σ1 !! c = Some (Awaiting this p signal) ∧
  promises σ3 !! p = Some (Rejected (failure_message n)) ∧
  calls σ3 !! c = Some (Returned (length (promises σ))) ∧
  outcome σ3 c = Some Pending ∧
  length (procs σ3) = S (length (procs σ)).
Proof.
  intros Hm Hp Hs Hn c σ1 σ2 σ3.
  assert (H1 : σ1 = set_calls (λ cs, cs ++ [Awaiting this p signal]) σ)
    by by apply run_awaits.
  assert (Hc1 : calls σ1 !! c = Some (Awaiting this p signal)).
  { rewrite H1. cbn. by apply list_lookup_middle. }
  assert (Hc2 : calls σ2 !! c = Some (Awaiting this p signal)).
  { subst σ2. by rewrite (proj2 (deliver_signals_calls _ _ _)). }
  assert (Hp2 : promises σ2 = alter (settle (Rejected (failure_message n))) p (promises σ)).
  { subst σ2. rewrite deliver_failure_promises by done. by rewrite H1. }
  assert (Hrej : promises σ2 !! p = Some (Rejected (failure_message n))).
  { by rewrite Hp2, list_lookup_alter_eq, Hp. }
  assert (Hlen : length (promises σ2) = length (promises σ)).
  { by rewrite Hp2, length_alter. }
  assert (H3 : σ3 = set_calls (<[c := Returned (length (promises σ))]>)
                      (spawn_promise this signal (assign_memoizedResult this None σ2)).2).
  { subst σ3. rewrite (resume_rejected c this p signal _ σ2 Hc2 Hrej). cbn zeta.
    cbn [after_await].
    rewrite (run_tail_spawns _ _ _ (memoizedResult_of_cleared σ2 this)), spawn_promise_fst.
    change (promises (assign_memoizedResult this None σ2)) with (promises σ2).
    by rewrite Hlen. }
  assert (Hret : calls σ3 !! c = Some (Returned (length (promises σ)))).
  { rewrite H3. cbn [calls set_calls]. rewrite (proj1 (spawn_promise_rest _ _ _)).
    apply list_lookup_insert_eq. by eapply lookup_lt_Some. }
  assert (Hp3 : promises σ3 = promises σ2 ++ [Pending]).
  { rewrite H3. cbn [promises set_calls]. by rewrite spawn_promise_promises. }
  split_and!; try done.
  - rewrite Hp3. by apply lookup_app_l_Some.
  - unfold outcome. rewrite Hret, Hp3, <- Hlen. by apply list_lookup_middle.
  - rewrite H3. cbn [procs set_calls]. rewrite spawn_promise_procs, length_app.
    change (procs (assign_memoizedResult this None σ2)) with (procs σ2).
    subst σ2. rewrite deliver_length_procs, H1. cbn. lia.
Qed.

(** X5.  A copy made by [memoize] while the source is running shares the
    outcome of that run.  When the child of the source exits with code 0,
    a [run] on the copy (token not fired) suspends on the shared promise and
    returns it, resolved: no child is spawned for the copy, whose
    [_childProcess] stays null, and the source keeps the promise too. *)
Theorem copy_shares_success (σ : state) (this : uref) (u : PredictedProcess)
    (p : pref) (h : href) (child : ChildProcess) (signal : option sref) :
  units σ !! this = Some u →
  _memoizedResult u = Some p →
  _childProcess u = Some h →
  procs σ !! h = Some child →
  listeners child = [OnError (mkClosure this p); OnClose (mkClosure this p)] →
  promises σ !! p = Some Pending →
  signal_aborted σ signal = false →
  let copy := length (units σ) in
  let c := length (calls σ) in
  let σ2 := emit h (EvClose (Some 0%Z)) (memoize this σ) in
  let σ4 := resume c (run copy signal σ2) in
  memoizedResult_of σ2 copy = Some p ∧
  outcome σ4 c = Some Resolved ∧
  length (procs σ4) = length (procs σ) ∧
  childProcess_of σ4 copy = None ∧
  memoizedResult_of σ4 this = Some p.
Proof.
  intros Hu Hm Hh Hc Hl Hp Hs copy c σ2 σ4.
  assert (H1 : memoize this σ =
            set_units (λ us, us ++ [mkPredictedProcess (id u) (command u) None (Some p)]) σ).
  { unfold memoize. by rewrite Hu, Hm. }
  assert (H2 : σ2 = resolve p (set_procs (alter release h) (count_cleanup (memoize this σ)))).
  { subst σ2. apply (emit_close_0 _ this p h child); [|by rewrite H1|done].
    unfold childProcess_of. rewrite H1. cbn. rewrite (lookup_app_l_Some _ _ _ _ Hu). exact Hh. }
  assert (Hu2 : units σ2 = units σ ++ [mkPredictedProcess (id u) (command u) None (Some p)]).
  { by rewrite H2, H1. }
  assert (Hm2 : memoizedResult_of σ2 copy = Some p).
  { unfold memoizedResult_of. rewrite Hu2. by rewrite list_lookup_middle. }
  assert (Hp2 : promises σ2 !! p = Some Resolved).
  { rewrite H2, H1. cbn. by rewrite list_lookup_alter_eq, Hp. }
  assert (Hs2 : signal_aborted σ2 signal = false) by by rewrite H2, H1.
  assert (Hc2 : calls σ2 = calls σ) by by rewrite H2, H1.
  assert (H3 : run copy signal σ2 = set_calls (λ cs, cs ++ [Awaiting copy p signal]) σ2)
    by by apply run_awaits.
  assert (H4 : σ4 = set_calls (<[c := Returned p]>) (run copy signal σ2)).
  { subst σ4. erewrite resume_resolved.
    - erewrite run_tail_reuses; [done|]. by rewrite H3.
    - rewrite H3. cbn. rewrite Hc2. by apply list_lookup_middle.
    - by rewrite H3. }
  split_and!; try done.
  - unfold outcome. rewrite H4, H3. cbn. rewrite Hc2.
    rewrite list_lookup_insert_eq; [done|]. rewrite length_app. cbn. subst c. lia.
  - rewrite H4, H3, H2, H1. cbn. by rewrite length_alter.
  - unfold childProcess_of. rewrite H4, H3. cbn [units set_calls]. rewrite Hu2.
    by rewrite list_lookup_middle.
  - unfold memoizedResult_of. rewrite H4, H3. cbn [units set_calls]. rewrite Hu2.
    rewrite (lookup_app_l_Some _ _ _ _ Hu). exact Hm.
Qed.

(** ** The further properties on the sample runs *)

(** [success_is_reused] on [succeeded], for a call without token. *)
Lemma success_is_reused_witness :
  memoizedResult_of succeeded 0 = Some 0 ∧
  promises succeeded !! 0 = Some Resolved ∧
  outcome (resume 1 (run 0 None succeeded)) 1 = Some Resolved ∧
  procs (resume 1 (run 0 None succeeded)) = procs succeeded.
Proof.
  destruct (success_is_reused succeeded 0 0 None eq_refl eq_refl eq_refl) as (H1 & H2 & _).
  split; [reflexivity|]. split; [reflexivity|]. split; [exact H1|exact H2].
Defined.

(** [child_events_settle_once] on [running]: an 'error' after the 'close',
    and a 'close' after the cancellation. *)
Lemma child_events_settle_once_witness :
  childProcess_of running 0 = Some 0 ∧
  emit 0 (EvClose (Some 0%Z)) (deliver (mkClosure 0 0) NAbort running) =
    deliver (mkClosure 0 0) NAbort running ∧
  emit 0 (EvError "EPIPE") (emit 0 (EvClose (Some 0%Z)) running) =
    emit 0 (EvClose (Some 0%Z)) running.
Proof.
  split; [reflexivity|].
  destruct (child_events_settle_once running 0 _ (mkClosure 0 0) (EvClose (Some 0%Z))
              (EvError "EPIPE") NAbort eq_refl eq_refl eq_refl) as (_ & H2).
  destruct (child_events_settle_once running 0 _ (mkClosure 0 0) (EvClose (Some 0%Z))
              (EvClose (Some 0%Z)) NAbort eq_refl eq_refl eq_refl) as (H1 & _).
  split; [exact H1|exact H2].
Defined.

(** [cancellation_kills_child] on [running]: signal 0 fires. *)
Lemma cancellation_kills_child_witness :
  signals running !! 0 = Some (mkAbortSignal false [mkClosure 0 0]) ∧
  promises running !! 0 = Some Pending ∧
  promises (abort 0 running) !! 0 = Some (Rejected "AbortSignal triggered") ∧
  (∃ c', procs (abort 0 running) !! 0 = Some c' ∧ listeners c' = [] ∧ 0 < kills c') ∧
  memoizedResult_of (abort 0 running) 0 = None ∧
  outcome (run 0 (Some 0) (abort 0 running)) 1 = Some (Rejected "Signal already aborted").
Proof.
  destruct (cancellation_kills_child running 0 _ (mkClosure 0 0) 0 _
              eq_refl eq_refl eq_refl eq_refl eq_refl eq_refl) as (H1 & H2 & H3 & H4 & _).
  do 2 (split; [reflexivity|]). split; [exact H1|]. split; [exact H2|].
  split; [exact H3|exact H4].
Defined.

(** [token_fired_while_waiting_is_ignored] on [fired_while_waiting]. *)
Lemma token_fired_while_waiting_is_ignored_witness :
  calls fired_while_waiting !! 1 = Some (Awaiting 0 0 (Some 1)) ∧
  promises fired_while_waiting !! 0 = Some (Rejected "Process exited with code 1") ∧
  signals fired_while_waiting !! 1 = Some (mkAbortSignal true []) ∧
  length (procs (resume 1 fired_while_waiting)) = 2 ∧
  outcome (resume 1 fired_while_waiting) 1 = Some Pending ∧
  abort 1 (resume 1 fired_while_waiting) = resume 1 fired_while_waiting.
Proof.
  destruct (token_fired_while_waiting_is_ignored fired_while_waiting 1 0 0 1 _ _
              eq_refl eq_refl eq_refl eq_refl) as (H1 & _ & H2 & _ & H3).
  do 3 (split; [reflexivity|]). split; [exact H1|]. split; [exact H2|exact H3].
Defined.

(** [joiner_retries_after_failure] on [running]: the child exits with
    code 1 while a second caller waits. *)
Lemma joiner_retries_after_failure_witness :
  let σ3 := resume 1 (deliver (mkClosure 0 0) (NClose (Some 1%Z)) (run 0 None running)) in
  memoizedResult_of running 0 = Some 0 ∧
  promises running !! 0 = Some Pending ∧
  promises σ3 !! 0 = Some (Rejected "Process exited with code 1") ∧
  outcome σ3 1 = Some Pending ∧
  length (procs σ3) = 2.
Proof.
  intros σ3.
  destruct (joiner_retries_after_failure running 0 0 None (NClose (Some 1%Z))
              eq_refl eq_refl eq_refl eq_refl) as (_ & H1 & _ & H2 & H3).
  do 2 (split; [reflexivity|]). split; [exact H1|]. split; [exact H2|exact H3].
Defined.

(** [copy_shares_success] on [running]. *)
Lemma copy_shares_success_witness :
  let σ4 := resume 1 (run 1 None (emit 0 (EvClose (Some 0%Z)) (memoize 0 running))) in
  units running !! 0 = Some (mkPredictedProcess 1 "sleep 1; exit 0" (Some 0) (Some 0)) ∧
  promises running !! 0 = Some Pending ∧
  outcome σ4 1 = Some Resolved ∧
  length (procs σ4) = 1 ∧
  childProcess_of σ4 1 = None.
Proof.
  intros σ4.
  destruct (copy_shares_success running 0 _ 0 0 _ None
              eq_refl eq_refl eq_refl eq_refl eq_refl eq_refl eq_refl)
    as (_ & H1 & H2 & H3 & _).
  do 2 (split; [reflexivity|]). split; [exact H1|]. split; [exact H2|exact H3].
Defined.
